(** * DriverAssignmentTracker: the assignment ledger and its five indices

    A shallow embedding of the Solidity contract [DriverAssignmentTracker]
    (the append-only log [assignments], the three array-valued mappings
    [byBus], [byDriver], [byBusDriver] and the two single-valued mappings
    [byBusTime], [byDriverTime]), followed by the properties of the
    ledger that the specification states about it.

    Conventions of the embedding:
    - a Solidity [string] is a [string] (one [ascii] per byte), [bytes]
      is a [list byte], [uint256] is an [N] (the 32-byte encoding below
      keeps the low 256 bits), [bytes32] is an [N];
    - positions in the log ([assignments.length], the stored ids) are
      [nat], the index type of the list that models the array (the
      array cannot reach 2^256 elements, so no arithmetic on them wraps);
    - a Solidity mapping is total: a key that was never written reads as
      the zero value of the value type.  It is a [gmap] read with [!!!],
      whose default is [[]] for arrays and [0] for [uint256];
    - an array read out of bounds reverts (Panic 0x32): view functions
      return an [option], [None] being the revert;
    - [keccak256] is a parameter of the development. *)

From Stdlib Require Import NArith Strings.Byte.
From stdpp Require Import gmap strings list fin_maps sorting.

Open Scope N_scope.

(** ** abi.encodePacked *)

(** One byte of a number: its low eight bits. *)
Definition byte_of_N (x : N) : byte :=
  default Byte.x00 (Byte.of_N (x mod 256)).

(** The [n] low bytes of [x], most significant first. *)
Fixpoint be_bytes (n : nat) (x : N) : list byte :=
  match n with
  | O => []
  | S n' => be_bytes n' (x / 256) ++ [byte_of_N x]
  end.

(** [abi.encodePacked] on a [uint256]: 32 bytes, big endian, no padding
    beyond the width of the type. *)
Definition encode_uint256 (x : N) : list byte := be_bytes 32 x.

(** [abi.encodePacked] on a [string]: its bytes, with neither a length
    prefix nor padding. *)
Definition encode_string (s : string) : list byte := String.list_byte_of_string s.

(** [abi.encodePacked(a, b)] for two strings. *)
Definition encodePacked_string_string (a b : string) : list byte :=
  encode_string a ++ encode_string b.

(** [abi.encodePacked(a, t)] for a string and a [uint256]. *)
Definition encodePacked_string_uint256 (a : string) (t : N) : list byte :=
  encode_string a ++ encode_uint256 t.

(** A collision-free stand-in for the hash, to run the contract on
    concrete inputs: the code of the byte string in stdpp's enumeration
    of strings. *)
Definition reference_hash (bs : list byte) : N :=
  N.pos (encode (String.string_of_list_byte bs)).

Close Scope N_scope.

(** ** The contract *)

(** [struct Assignment], fields in the order of the declaration. *)
Record Assignment := mkAssignment {
  busId : string;
  source : string;
  destination : string;
  driverId : string;
  timestamp : N
}.

(** [event AssignmentRecorded(id, busId, driverId, timestamp)]. *)
Record AssignmentRecorded := mkAssignmentRecorded {
  ev_id : nat;
  ev_busId : string;
  ev_driverId : string;
  ev_timestamp : N
}.

(** The storage of the contract. *)
Record State := mkState {
  assignments : list Assignment;
  byBus : gmap string (list nat);
  byDriver : gmap string (list nat);
  byBusDriver : gmap N (list nat);
  byBusTime : gmap N nat;
  byDriverTime : gmap N nat
}.

(** Storage of a freshly deployed contract. *)
Definition init : State := mkState [] ∅ ∅ ∅ ∅ ∅.

(** [m[k].push(id)] on a mapping to arrays. *)
Definition push_at `{Countable K} (k : K) (id : nat) (m : gmap K (list nat))
  : gmap K (list nat) :=
  <[k := (m !!! k) ++ [id]]> m.

(** The loop shared by the three list queries:
    [for (i = 0; i < ids.length; i++)
       results[i] = assignments[ids[ids.length - 1 - i]];] *)
Definition collect_descending (log : list Assignment) (ids : list nat)
  : option (list Assignment) :=
  mapM (λ i, ids !! (length ids - 1 - i) ≫= λ id, log !! id)
       (seq 0 (length ids)).

(** ** Tactics for concrete histories *)

(** Replaces the log of a concrete state by its value. *)
Ltac eval_log :=
  repeat match goal with
  | |- context [assignments ?s] =>
      let l := eval vm_compute in (assignments s) in
      change (assignments s) with l
  end.

(** Settles [Forall P l] on a concrete list, one element at a time. *)
Ltac each_record :=
  eval_log; repeat constructor; vm_compute; intros; discriminate.

Section Contract.

Variable keccak256 : list byte → N.

(** [keccak256(abi.encodePacked(busId, driverId))] *)
Definition pairKey (b d : string) : N :=
  keccak256 (encodePacked_string_string b d).

(** [keccak256(abi.encodePacked(busId, timestamp))], and the same
    expression with [driverId] for the by-driver index. *)
Definition timeKey (a : string) (t : N) : N :=
  keccak256 (encodePacked_string_uint256 a t).

Definition recordAssignment (s : State)
    (busId source destination driverId : string) (timestamp : N)
  : State * AssignmentRecorded :=
  let id := length (assignments s) in
  (mkState
     (assignments s ++ [mkAssignment busId source destination driverId timestamp])
     (push_at busId id (byBus s))
     (push_at driverId id (byDriver s))
     (push_at (pairKey busId driverId) id (byBusDriver s))
     (<[timeKey busId timestamp := id]> (byBusTime s))
     (<[timeKey driverId timestamp := id]> (byDriverTime s)),
   mkAssignmentRecorded id busId driverId timestamp).

(** The getter that [Assignment[] public assignments] declares:
    [assignments(i)] returns the record at position [i] and reverts
    past the end of the array. *)
Definition assignments_at (s : State) (i : nat) : option Assignment :=
  assignments s !! i.

Definition getDriversByBus (s : State) (busId : string)
  : option (list Assignment) :=
  collect_descending (assignments s) (byBus s !!! busId).

Definition getBusesByDriver (s : State) (driverId : string)
  : option (list Assignment) :=
  collect_descending (assignments s) (byDriver s !!! driverId).

Definition getAssignmentsByBusDriver (s : State) (busId driverId : string)
  : option (list Assignment) :=
  collect_descending (assignments s) (byBusDriver s !!! pairKey busId driverId).

Definition getDriverByBusTime (s : State) (busId : string) (timestamp : N)
  : option Assignment :=
  let id := byBusTime s !!! timeKey busId timestamp in
  assignments s !! id.

Definition getBusByDriverTime (s : State) (driverId : string) (timestamp : N)
  : option Assignment :=
  let id := byDriverTime s !!! timeKey driverId timestamp in
  assignments s !! id.

(** *** The contract as a transition system *)

(** A call of one of the public functions: the write, the getter of
    the log and the five queries. *)
Inductive Call :=
| RecordAssignment (busId source destination driverId : string) (timestamp : N)
| AssignmentsAt (i : nat)
| GetDriversByBus (busId : string)
| GetBusesByDriver (driverId : string)
| GetAssignmentsByBusDriver (busId driverId : string)
| GetDriverByBusTime (busId : string) (timestamp : N)
| GetBusByDriverTime (driverId : string) (timestamp : N).

(** What a call hands back: the event of a write, or the value of a view. *)
Inductive Output :=
| Emitted (e : AssignmentRecorded)
| Records (l : list Assignment)
| OneRecord (a : Assignment).

(** One call: the storage after it and its output, or [None] when it
    reverts.  The getter and the five queries are [view] functions. *)
Definition exec (s : State) (c : Call) : option (State * Output) :=
  match c with
  | RecordAssignment b src dst d t =>
      let '(s', e) := recordAssignment s b src dst d t in Some (s', Emitted e)
  | AssignmentsAt i => (λ a, (s, OneRecord a)) <$> assignments_at s i
  | GetDriversByBus b => (λ l, (s, Records l)) <$> getDriversByBus s b
  | GetBusesByDriver d => (λ l, (s, Records l)) <$> getBusesByDriver s d
  | GetAssignmentsByBusDriver b d =>
      (λ l, (s, Records l)) <$> getAssignmentsByBusDriver s b d
  | GetDriverByBusTime b t => (λ a, (s, OneRecord a)) <$> getDriverByBusTime s b t
  | GetBusByDriverTime d t => (λ a, (s, OneRecord a)) <$> getBusByDriverTime s d t
  end.

(** A reverted call leaves the storage as it was. *)
Definition step (s : State) (c : Call) : State :=
  match exec s c with
  | Some (s', _) => s'
  | None => s
  end.

(** A history of calls, oldest first. *)
Definition run (s : State) (cs : list Call) : State := fold_left step cs s.

(** *** What the indices hold *)

(** The positions of the log, in increasing order, whose record
    satisfies [P]. *)
Definition positions (P : Assignment → Prop) `{!∀ r, Decision (P r)}
    (log : list Assignment) : list nat :=
  (filter (λ ir, P ir.2) (imap pair log)).*1.

(** The five indices agree with the log: an array-valued bucket lists
    the positions that carry its key, in the order they were written;
    a single-valued entry holds the last position that carries its key,
    and is unset when there is none. *)
Record consistent (s : State) : Prop := {
  by_bus_ok : ∀ b,
    byBus s !!! b = positions (λ r, busId r = b) (assignments s);
  by_driver_ok : ∀ d,
    byDriver s !!! d = positions (λ r, driverId r = d) (assignments s);
  by_pair_ok : ∀ k,
    byBusDriver s !!! k =
    positions (λ r, pairKey (busId r) (driverId r) = k) (assignments s);
  by_bus_time_ok : ∀ k,
    byBusTime s !! k =
    last (positions (λ r, timeKey (busId r) (timestamp r) = k) (assignments s));
  by_driver_time_ok : ∀ k,
    byDriverTime s !! k =
    last (positions (λ r, timeKey (driverId r) (timestamp r) = k) (assignments s))
}.

(** The calls of a history that write. *)
Definition is_write (c : Call) : bool :=
  match c with RecordAssignment _ _ _ _ _ => true | _ => false end.

(** How many writes a history holds. *)
Definition writes (cs : list Call) : nat :=
  length (filter (λ c, is_write c = true) cs).

(** The record a write appends. *)
Definition written (c : Call) : option Assignment :=
  match c with
  | RecordAssignment b src dst d t => Some (mkAssignment b src dst d t)
  | _ => None
  end.

(** [res] is a successful result that reads [log] at the positions of
    [bucket] from the last one to the first, and these positions
    decrease strictly. *)
Definition newest_first (log : list Assignment) (bucket : list nat)
    (res : option (list Assignment)) : Prop :=
  ∃ rs, res = Some rs ∧
        Forall2 (λ i r, log !! i = Some r) (reverse bucket) rs ∧
        StronglySorted gt (reverse bucket).

(** The values of the Solidity type [uint256]. *)
Definition is_uint256 (t : N) : Prop := (t < 2 ^ 256)%N.

(** *** Replaying the log *)

(** The write that appends a given record. *)
Definition write_of (r : Assignment) : Call :=
  RecordAssignment (busId r) (source r) (destination r) (driverId r) (timestamp r).

(** The storage a fresh contract gets from a log by writing its records
    again, oldest first. *)
Definition replay (log : list Assignment) : State := run init (write_of <$> log).

(** * Properties *)

(** ** The packed encoding *)

Lemma byte_of_N_to_N (x : N) : Byte.to_N (byte_of_N x) = (x mod 256)%N.
Proof.
  unfold byte_of_N.
  destruct (Byte.of_N (x mod 256)) as [b|] eqn:E.
  - now apply Byte.to_of_N.
  - apply Byte.of_N_None_iff in E.
    pose proof (N.mod_upper_bound x 256). lia.
Qed.

Lemma length_be_bytes (n : nat) (x : N) : length (be_bytes n x) = n.
Proof.
  revert x. induction n as [|n IH]; intros x; simpl; [done|].
  rewrite length_app, IH. simpl. lia.
Qed.

Lemma be_bytes_inj (n : nat) (x y : N) :
  (x < 256 ^ N.of_nat n)%N → (y < 256 ^ N.of_nat n)%N →
  be_bytes n x = be_bytes n y → x = y.
Proof.
  revert x y. induction n as [|n IH]; intros x y Hx Hy E.
  - simpl in Hx, Hy. lia.
  - simpl in E. apply app_inj_2 in E as [Ehi Elo]; [|done].
    injection Elo as Elo. apply (f_equal Byte.to_N) in Elo.
    rewrite !byte_of_N_to_N in Elo.
    rewrite Nat2N.inj_succ, N.pow_succ_r' in Hx, Hy.
    assert (x / 256 = y / 256)%N as Ediv.
    { apply IH; [| |done]; apply N.Div0.div_lt_upper_bound; lia. }
    rewrite (N.div_mod x 256), (N.div_mod y 256) by lia. congruence.
Qed.

Lemma encode_uint256_inj (x y : N) :
  (x < 2 ^ 256)%N → (y < 2 ^ 256)%N →
  encode_uint256 x = encode_uint256 y → x = y.
Proof.
  intros Hx Hy. apply be_bytes_inj.
  - replace (256 ^ N.of_nat 32)%N with (2 ^ 256)%N by (vm_compute; done). done.
  - replace (256 ^ N.of_nat 32)%N with (2 ^ 256)%N by (vm_compute; done). done.
Qed.

Lemma encode_string_inj (a b : string) : encode_string a = encode_string b → a = b.
Proof.
  unfold encode_string. intros E.
  rewrite <- (String.string_of_list_byte_of_string a),
          <- (String.string_of_list_byte_of_string b).
  now rewrite E.
Qed.

Lemma encodePacked_string_uint256_inj (a b : string) (t u : N) :
  (t < 2 ^ 256)%N → (u < 2 ^ 256)%N →
  encodePacked_string_uint256 a t = encodePacked_string_uint256 b u →
  a = b ∧ t = u.
Proof.
  intros Ht Hu E. unfold encodePacked_string_uint256 in E.
  apply app_inj_2 in E as [Ea Et].
  - split; [by apply encode_string_inj | by apply encode_uint256_inj].
  - unfold encode_uint256. by rewrite !length_be_bytes.
Qed.

Lemma reference_hash_inj (x y : list byte) :
  reference_hash x = reference_hash y → x = y.
Proof.
  unfold reference_hash. intros E.
  injection E as E. apply (inj encode) in E.
  rewrite <- (String.list_byte_of_string_of_list_byte x),
          <- (String.list_byte_of_string_of_list_byte y).
  now rewrite E.
Qed.

(** ** The read loop *)

Lemma mapM_ext_Forall2 {A B C} (f : A → option C) (g : B → option C) l k :
  Forall2 (λ x y, f x = g y) l k → mapM f l = mapM g k.
Proof.
  induction 1 as [|x y l k E _ IH]; [done|].
  simpl. by rewrite E, IH.
Qed.

(** The loop reads the bucket back to front. *)
Lemma collect_descending_reverse (log : list Assignment) (ids : list nat) :
  collect_descending log ids = mapM (λ id, log !! id) (reverse ids).
Proof.
  unfold collect_descending. apply mapM_ext_Forall2.
  apply Forall2_same_length_lookup_2.
  - by rewrite length_seq, length_reverse.
  - intros i j id Hi Hid.
    apply lookup_seq in Hi as [-> Hlt]. simpl.
    rewrite reverse_lookup in Hid by done.
    replace (length ids - 1 - i) with (length ids - S i) by lia.
    by rewrite Hid.
Qed.

(** ** The indices follow the log *)

Section Positions.
Context (P : Assignment → Prop) `{!∀ r, Decision (P r)}.

Lemma positions_snoc log r :
  positions P (log ++ [r]) =
  positions P log ++ (if decide (P r) then [length log] else []).
Proof.
  unfold positions. rewrite imap_app, filter_app, fmap_app. f_equal.
  simpl. rewrite Nat.add_0_r.
  rewrite filter_cons, filter_nil. simpl. by destruct (decide (P r)).
Qed.

Lemma elem_of_positions log i :
  i ∈ positions P log ↔ ∃ r, log !! i = Some r ∧ P r.
Proof.
  unfold positions. rewrite list_elem_of_fmap. split.
  - intros [[j r] [-> [HP Hin]%list_elem_of_filter]].
    apply elem_of_lookup_imap in Hin as (j' & r' & [= -> ->] & Hl). eauto.
  - intros (r & Hl & HP). exists (i, r). split; [done|].
    apply list_elem_of_filter. split; [done|].
    by apply (elem_of_lookup_imap_2 pair).
Qed.

Lemma positions_lt log i : i ∈ positions P log → i < length log.
Proof.
  intros (r & Hl & _)%elem_of_positions. by apply lookup_lt_Some in Hl.
Qed.

Lemma positions_sorted log : StronglySorted lt (positions P log).
Proof.
  induction log as [|r log IH] using rev_ind; [constructor|].
  rewrite positions_snoc. apply StronglySorted_app_2; [|done|].
  - intros i j Hi Hj. apply positions_lt in Hi.
    destruct (decide (P r)).
    + by apply list_elem_of_singleton in Hj as ->.
    + by apply elem_of_nil in Hj.
  - destruct (decide (P r)); repeat constructor.
Qed.

Lemma positions_none log : (∀ r, r ∈ log → ¬ P r) → positions P log = [].
Proof.
  intros Hno. destruct (positions P log) as [|i l] eqn:E; [done|].
  assert (i ∈ positions P log) as Hi by (rewrite E; left).
  apply elem_of_positions in Hi as (r & Hl & HP).
  destruct (Hno r); [by eapply list_elem_of_lookup_2 | done].
Qed.
End Positions.

Lemma StronglySorted_reverse_lt (l : list nat) :
  StronglySorted lt l → StronglySorted gt (reverse l).
Proof.
  induction 1 as [|x l Hl IH Hx]; [constructor|].
  rewrite reverse_cons. apply StronglySorted_app_2; [|done|repeat constructor].
  intros i j Hi ->%list_elem_of_singleton.
  rewrite elem_of_reverse in Hi. rewrite Forall_forall in Hx.
  specialize (Hx i Hi). unfold gt. done.
Qed.

Lemma push_at_lookup `{Countable K} (k k' : K) id (m : gmap K (list nat)) :
  push_at k id m !!! k' =
  m !!! k' ++ (if decide (k = k') then [id] else []).
Proof.
  unfold push_at. rewrite lookup_total_insert.
  destruct (decide (k = k')) as [->|]; [done|]. by rewrite app_nil_r.
Qed.

Lemma consistent_init : consistent init.
Proof.
  split; intros; simpl; by rewrite ?lookup_total_empty, ?lookup_empty.
Qed.

Lemma consistent_recordAssignment s b src dst d t :
  consistent s → consistent (recordAssignment s b src dst d t).1.
Proof.
  intros [Hb Hd Hp Hbt Hdt].
  split; simpl; intros k; rewrite positions_snoc; simpl.
  - by rewrite push_at_lookup, Hb.
  - by rewrite push_at_lookup, Hd.
  - by rewrite push_at_lookup, Hp.
  - rewrite lookup_insert, last_app.
    destruct (decide (timeKey b t = k)); [done|]. apply Hbt.
  - rewrite lookup_insert, last_app.
    destruct (decide (timeKey d t = k)); [done|]. apply Hdt.
Qed.

(** A view leaves the storage alone, whether it returns or reverts. *)
Lemma step_view s c : is_write c = false → step s c = s.
Proof.
  unfold step.
  destruct c as [b src dst d t|i|b|d|b d|b t|d t]; simpl; try done; intros _.
  - by destruct (assignments_at s i).
  - by destruct (getDriversByBus s b).
  - by destruct (getBusesByDriver s d).
  - by destruct (getAssignmentsByBusDriver s b d).
  - by destruct (getDriverByBusTime s b t).
  - by destruct (getBusByDriverTime s d t).
Qed.

Lemma step_write s b src dst d t :
  step s (RecordAssignment b src dst d t) = (recordAssignment s b src dst d t).1.
Proof. done. Qed.

Lemma consistent_step s c : consistent s → consistent (step s c).
Proof.
  intros Hs. destruct (is_write c) eqn:E.
  - destruct c; try done. rewrite step_write.
    by apply consistent_recordAssignment.
  - by rewrite step_view.
Qed.

Lemma consistent_run s cs : consistent s → consistent (run s cs).
Proof.
  revert s. induction cs as [|c cs IH]; intros s Hs; [done|].
  simpl. apply IH. by apply consistent_step.
Qed.

Lemma run_app s cs1 cs2 : run s (cs1 ++ cs2) = run (run s cs1) cs2.
Proof. unfold run. apply fold_left_app. Qed.


(** ** The log only grows *)

Lemma assignments_step s c :
  assignments (step s c) = assignments s ++ option_list (written c).
Proof.
  destruct (is_write c) eqn:E.
  - by destruct c.
  - rewrite step_view by done. destruct c; simpl; by rewrite ?app_nil_r.
Qed.

Lemma assignments_run s cs :
  assignments (run s cs) = assignments s ++ omap written cs.
Proof.
  revert s. induction cs as [|c cs IH]; intros s; simpl.
  - by rewrite app_nil_r.
  - rewrite IH, assignments_step, <- app_assoc. f_equal.
    by destruct (written c).
Qed.

Lemma length_omap_written cs : length (omap written cs) = writes cs.
Proof.
  unfold writes. induction cs as [|c cs IH]; [done|].
  rewrite filter_cons.
  destruct c; csimpl; try case_decide; try done; simpl; by rewrite ?IH.
Qed.

Lemma lookup_run_stable s cs i r :
  assignments s !! i = Some r → assignments (run s cs) !! i = Some r.
Proof. intros Hi. rewrite assignments_run. by apply lookup_app_l_Some. Qed.

(** ** The list queries on a consistent storage *)

Lemma positions_deref (P : Assignment → Prop) `{!∀ r, Decision (P r)} log :
  Forall2 (λ i r, log !! i = Some r) (positions P log) (filter P log).
Proof.
  induction log as [|r log IH] using rev_ind; [constructor|].
  rewrite positions_snoc, filter_app. apply Forall2_app.
  - eapply Forall2_impl; [exact IH|]. intros i x Hi. by apply lookup_app_l_Some.
  - rewrite filter_cons, filter_nil.
    destruct (decide (P r)); constructor; [|constructor].
    by rewrite lookup_app_r, Nat.sub_diag.
Qed.

Lemma filter_none {A} (P : A → Prop) `{!∀ x, Decision (P x)} (l : list A) :
  Forall (λ x, ¬ P x) l → filter P l = [].
Proof.
  induction 1 as [|x l Hx _ IH]; [done|].
  rewrite filter_cons. by destruct (decide (P x)).
Qed.

Lemma collect_descending_Some log ids rs :
  Forall2 (λ i r, log !! i = Some r) ids rs →
  collect_descending log ids = Some (reverse rs).
Proof.
  intros HF. rewrite collect_descending_reverse.
  apply mapM_Some. by apply Forall2_reverse.
Qed.

Lemma collect_descending_positions (P : Assignment → Prop)
    `{!∀ r, Decision (P r)} log :
  collect_descending log (positions P log) = Some (reverse (filter P log)).
Proof. apply collect_descending_Some, positions_deref. Qed.

Lemma getDriversByBus_consistent s b :
  consistent s →
  getDriversByBus s b = Some (reverse (filter (λ r, busId r = b) (assignments s))).
Proof.
  intros Hs. unfold getDriversByBus.
  rewrite (by_bus_ok s Hs). apply collect_descending_positions.
Qed.

Lemma getBusesByDriver_consistent s d :
  consistent s →
  getBusesByDriver s d =
  Some (reverse (filter (λ r, driverId r = d) (assignments s))).
Proof.
  intros Hs. unfold getBusesByDriver.
  rewrite (by_driver_ok s Hs). apply collect_descending_positions.
Qed.

Lemma getAssignmentsByBusDriver_consistent s b d :
  consistent s →
  getAssignmentsByBusDriver s b d =
  Some (reverse (filter (λ r, pairKey (busId r) (driverId r) = pairKey b d)
                        (assignments s))).
Proof.
  intros Hs. unfold getAssignmentsByBusDriver.
  rewrite (by_pair_ok s Hs). apply collect_descending_positions.
Qed.

(** ** The point entries *)

Lemma byBusTime_step_ne s c k :
  (∀ r, written c = Some r → timeKey (busId r) (timestamp r) ≠ k) →
  byBusTime (step s c) !! k = byBusTime s !! k.
Proof.
  intros Hne. destruct (is_write c) eqn:E.
  - destruct c as [b src dst d t| | | | | |]; try done.
    rewrite step_write. simpl. apply lookup_insert_ne.
    by apply (Hne (mkAssignment b src dst d t)).
  - by rewrite step_view.
Qed.

Lemma byDriverTime_step_ne s c k :
  (∀ r, written c = Some r → timeKey (driverId r) (timestamp r) ≠ k) →
  byDriverTime (step s c) !! k = byDriverTime s !! k.
Proof.
  intros Hne. destruct (is_write c) eqn:E.
  - destruct c as [b src dst d t| | | | | |]; try done.
    rewrite step_write. simpl. apply lookup_insert_ne.
    by apply (Hne (mkAssignment b src dst d t)).
  - by rewrite step_view.
Qed.

Lemma byBusTime_run_ne s cs k :
  Forall (λ c, ∀ r, written c = Some r → timeKey (busId r) (timestamp r) ≠ k) cs →
  byBusTime (run s cs) !! k = byBusTime s !! k.
Proof.
  intros HF. revert s. induction HF as [|c cs Hc _ IH]; intros s; [done|].
  simpl. by rewrite IH, byBusTime_step_ne.
Qed.

Lemma byDriverTime_run_ne s cs k :
  Forall (λ c, ∀ r, written c = Some r → timeKey (driverId r) (timestamp r) ≠ k) cs →
  byDriverTime (run s cs) !! k = byDriverTime s !! k.
Proof.
  intros HF. revert s. induction HF as [|c cs Hc _ IH]; intros s; [done|].
  simpl. by rewrite IH, byDriverTime_step_ne.
Qed.

(** ** The ledger *)

(** C6 (append-only). A record that the getter [assignments(i)] returns
    at a position of the log is returned at that position, with every
    field as it was, after any further calls of the contract: writes
    only append and views do not touch the storage. *)
Theorem append_only (s : State) (cs : list Call) (i : nat) (r : Assignment) :
  assignments_at s i = Some r →
  assignments_at (run s cs) i = Some r.
Proof. apply lookup_run_stable. Qed.

(** C7 (sequence ids). After any history of calls on a fresh contract,
    the next [recordAssignment] emits as id the number of writes made
    so far, which is the length of the log, and stores its record at
    that position: ids are 0, 1, 2, ... in call order. *)
Theorem sequence_ids_count_writes (cs : list Call)
    (b src dst d : string) (t : N) :
  let s := run init cs in
  let n := writes cs in
  ev_id (recordAssignment s b src dst d t).2 = n ∧
  length (assignments s) = n ∧
  assignments (recordAssignment s b src dst d t).1 !! n =
    Some (mkAssignment b src dst d t).
Proof.
  intros s n.
  assert (length (assignments s) = n) as Hn.
  { unfold s, n. by rewrite assignments_run, <- length_omap_written. }
  split_and!; simpl; [done..|].
  by rewrite lookup_app_r, Hn, Nat.sub_diag by lia.
Qed.

(** C5 (index completeness). A write appends its record at position
    [length assignments] and pushes that position on the by-bus, the
    by-driver and the by-bus-and-driver bucket of the record; and in
    every state reached by a history of calls, each record of the log
    is returned by the three list queries asked with its own fields. *)
Theorem index_completeness :
  (∀ s b src dst d t,
     let s' := (recordAssignment s b src dst d t).1 in
     let id := length (assignments s) in
     assignments s' !! id = Some (mkAssignment b src dst d t) ∧
     byBus s' !!! b = byBus s !!! b ++ [id] ∧
     byDriver s' !!! d = byDriver s !!! d ++ [id] ∧
     byBusDriver s' !!! pairKey b d = byBusDriver s !!! pairKey b d ++ [id]) ∧
  (∀ cs i r,
     let s := run init cs in
     assignments s !! i = Some r →
     (∃ rs, getDriversByBus s (busId r) = Some rs ∧ r ∈ rs) ∧
     (∃ rs, getBusesByDriver s (driverId r) = Some rs ∧ r ∈ rs) ∧
     (∃ rs, getAssignmentsByBusDriver s (busId r) (driverId r) = Some rs ∧
            r ∈ rs)).
Proof.
  split.
  - intros s b src dst d t. simpl. split_and!.
    + by rewrite lookup_app_r, Nat.sub_diag.
    + unfold push_at. by rewrite lookup_total_insert_eq.
    + unfold push_at. by rewrite lookup_total_insert_eq.
    + unfold push_at. by rewrite lookup_total_insert_eq.
  - intros cs i r s Hi.
    assert (consistent s) as Hs by apply consistent_run, consistent_init.
    apply list_elem_of_lookup_2 in Hi.
    split_and!; eexists; split;
      [by apply getDriversByBus_consistent| |
       by apply getBusesByDriver_consistent| |
       by apply getAssignmentsByBusDriver_consistent| ];
      rewrite elem_of_reverse; by apply list_elem_of_filter.
Qed.

(** ** Order of the list queries *)

Lemma newest_first_positions (P : Assignment → Prop)
    `{!∀ r, Decision (P r)} log :
  newest_first log (positions P log) (collect_descending log (positions P log)).
Proof.
  exists (reverse (filter P log)). split_and!.
  - apply collect_descending_positions.
  - apply Forall2_reverse, positions_deref.
  - apply StronglySorted_reverse_lt, positions_sorted.
Qed.

(** ** The point lookups *)

Lemma timeKey_inj (a1 a2 : string) (t1 t2 : N) :
  Inj (=) (=) keccak256 → is_uint256 t1 → is_uint256 t2 →
  timeKey a1 t1 = timeKey a2 t2 → a1 = a2 ∧ t1 = t2.
Proof.
  intros Hinj H1 H2 E. apply (inj keccak256) in E.
  by apply encodePacked_string_uint256_inj.
Qed.

Lemma later_write_wins_by_key (cs1 cs2 cs3 : list Call)
    (b : string) (t : N) (src1 dst1 d1 src2 dst2 d2 : string) :
  Forall (λ c, ∀ r, written c = Some r →
                    timeKey (busId r) (timestamp r) ≠ timeKey b t) cs3 →
  let s := run init (cs1 ++ RecordAssignment b src1 dst1 d1 t ::
                     cs2 ++ RecordAssignment b src2 dst2 d2 t :: cs3) in
  let i1 := writes cs1 in
  let i2 := writes cs1 + 1 + writes cs2 in
  assignments s !! i1 = Some (mkAssignment b src1 dst1 d1 t) ∧
  assignments s !! i2 = Some (mkAssignment b src2 dst2 d2 t) ∧
  byBusTime s !!! timeKey b t = i2 ∧
  getDriverByBusTime s b t = Some (mkAssignment b src2 dst2 d2 t) ∧
  i1 ∈ byBus s !!! b ∧
  ∃ rs, getDriversByBus s b = Some rs ∧ mkAssignment b src1 dst1 d1 t ∈ rs.
Proof.
  intros Hcs3 s i1 i2.
  assert (consistent s) as Hs by apply consistent_run, consistent_init.
  set (r1 := mkAssignment b src1 dst1 d1 t).
  set (r2 := mkAssignment b src2 dst2 d2 t).
  assert (assignments s =
          omap written cs1 ++ r1 :: omap written cs2 ++ r2 :: omap written cs3)
    as Hlog.
  { unfold s. rewrite assignments_run. simpl.
    rewrite omap_app. csimpl. by rewrite omap_app. }
  assert (assignments s !! i1 = Some r1) as H1.
  { rewrite Hlog. unfold i1. rewrite <- length_omap_written.
    by rewrite lookup_app_r, Nat.sub_diag. }
  assert (assignments s !! i2 = Some r2) as H2.
  { rewrite Hlog. unfold i2. rewrite <- !length_omap_written.
    rewrite lookup_app_r by lia.
    replace (length (omap written cs1) + 1 + length (omap written cs2)
             - length (omap written cs1))
      with (S (length (omap written cs2))) by lia.
    simpl. by rewrite lookup_app_r, Nat.sub_diag. }
  assert (byBusTime s !!! timeKey b t = i2) as Hk.
  { apply lookup_total_correct. unfold s.
    rewrite run_app. simpl. rewrite run_app. simpl.
    rewrite byBusTime_run_ne by done.
    rewrite step_write. simpl. rewrite lookup_insert_eq. f_equal.
    rewrite assignments_run, assignments_step, assignments_run. simpl.
    rewrite !length_app, !length_omap_written. simpl. unfold i2. lia. }
  split_and!; try done.
  - unfold getDriverByBusTime. simpl. by rewrite Hk.
  - rewrite (by_bus_ok s Hs). apply elem_of_positions. by exists r1.
  - eexists. split; [by apply getDriversByBus_consistent|].
    rewrite elem_of_reverse. apply list_elem_of_filter. split; [done|].
    by eapply list_elem_of_lookup_2.
Qed.

(** C3 (point overwrite). Take a history with two writes for the same
    bus id and timestamp, and after the second of them no write for that
    bus id at that timestamp.  Then the entry of the point index is the
    position of the second write, the larger of the two,
    [getDriverByBusTime] returns the record of the second write, and the
    record of the first write is still at its position in the log, in
    the by-bus bucket and in the result of [getDriversByBus].  This
    holds for every hash when no later write has the by-bus-at-time key
    of the two writes, and, with an injective hash and [uint256]
    timestamps, when no later write has their bus id and timestamp. *)
Theorem later_write_wins_point_lookup (cs1 cs2 cs3 : list Call)
    (b : string) (t : N) (src1 dst1 d1 src2 dst2 d2 : string) :
  let s := run init (cs1 ++ RecordAssignment b src1 dst1 d1 t ::
                     cs2 ++ RecordAssignment b src2 dst2 d2 t :: cs3) in
  let i1 := writes cs1 in
  let i2 := writes cs1 + 1 + writes cs2 in
  let later_wins :=
    assignments s !! i1 = Some (mkAssignment b src1 dst1 d1 t) ∧
    assignments s !! i2 = Some (mkAssignment b src2 dst2 d2 t) ∧
    byBusTime s !!! timeKey b t = i2 ∧
    getDriverByBusTime s b t = Some (mkAssignment b src2 dst2 d2 t) ∧
    i1 ∈ byBus s !!! b ∧
    ∃ rs, getDriversByBus s b = Some rs ∧ mkAssignment b src1 dst1 d1 t ∈ rs in
  (Forall (λ c, ∀ r, written c = Some r →
                     timeKey (busId r) (timestamp r) ≠ timeKey b t) cs3 →
   later_wins) ∧
  (Inj (=) (=) keccak256 → is_uint256 t →
   Forall (λ c, ∀ r, written c = Some r →
                     is_uint256 (timestamp r) ∧
                     (busId r, timestamp r) ≠ (b, t)) cs3 →
   later_wins).
Proof.
  intros s i1 i2 later_wins. split.
  - intros Hkeys. by apply later_write_wins_by_key.
  - intros Hinj Ht Hpairs. apply later_write_wins_by_key.
    eapply Forall_impl; [exact Hpairs|]. intros c Hc r Hr E.
    destruct (Hc r Hr) as [Hur Hne].
    apply timeKey_inj in E as [? ?]; [|done..].
    apply Hne. by f_equal.
Qed.

(** C10 (the time keys do not collide). With a hash that is injective
    on byte strings, the key under which the by-bus-at-time index (and,
    by the same expression, the by-driver-at-time index) files an
    identifier and a [uint256] timestamp determines both of them: equal
    keys come from equal identifiers and equal timestamps. *)
Theorem timeKey_injective (id1 id2 : string) (t1 t2 : N) :
  Inj (=) (=) keccak256 → is_uint256 t1 → is_uint256 t2 →
  timeKey id1 t1 = timeKey id2 t2 → id1 = id2 ∧ t1 = t2.
Proof.
  intros Hinj H1 H2 E. unfold timeKey in E. apply Hinj in E.
  apply encodePacked_string_uint256_inj in E; [exact E|exact H1|exact H2].
Qed.

Lemma unset_reads_zero `{Countable K} (m : gmap K nat) (k : K) :
  m !! k = None → m !!! k = 0.
Proof. intros E. by rewrite lookup_total_alt, E. Qed.

Lemma getDriverByBusTime_unset s a t :
  consistent s →
  Forall (λ r, timeKey (busId r) (timestamp r) ≠ timeKey a t) (assignments s) →
  getDriverByBusTime s a t = assignments s !! 0.
Proof.
  intros Hs Hno. unfold getDriverByBusTime. simpl.
  rewrite unset_reads_zero; [done|].
  rewrite (by_bus_time_ok s Hs), positions_none; [done|].
  by apply Forall_forall.
Qed.

Lemma getBusByDriverTime_unset s a t :
  consistent s →
  Forall (λ r, timeKey (driverId r) (timestamp r) ≠ timeKey a t) (assignments s) →
  getBusByDriverTime s a t = assignments s !! 0.
Proof.
  intros Hs Hno. unfold getBusByDriverTime. simpl.
  rewrite unset_reads_zero; [done|].
  rewrite (by_driver_time_ok s Hs), positions_none; [done|].
  by apply Forall_forall.
Qed.

(** C9 (what an unrecorded point lookup does). In every state reached
    by a history of calls, [getDriverByBusTime] asked for a bus id and
    timestamp whose key no record of the log carries reads the unset
    entry as 0 and returns [assignments[0]]: the first record ever
    appended when the log is not empty, a revert on the out-of-bounds
    read when it is empty.  [getBusByDriverTime] does the same.  With
    an injective hash and [uint256] timestamps, the key of a pair is
    carried by no record as soon as the pair itself was never
    recorded. *)
Theorem point_lookup_default_position (cs : list Call) (a : string) (t : N) :
  let s := run init cs in
  (Forall (λ r, timeKey (busId r) (timestamp r) ≠ timeKey a t) (assignments s) →
   getDriverByBusTime s a t = assignments s !! 0) ∧
  (Forall (λ r, timeKey (driverId r) (timestamp r) ≠ timeKey a t) (assignments s) →
   getBusByDriverTime s a t = assignments s !! 0) ∧
  (Inj (=) (=) keccak256 → is_uint256 t →
   Forall (λ r, is_uint256 (timestamp r)) (assignments s) →
   (Forall (λ r, (busId r, timestamp r) ≠ (a, t)) (assignments s) →
    getDriverByBusTime s a t = assignments s !! 0) ∧
   (Forall (λ r, (driverId r, timestamp r) ≠ (a, t)) (assignments s) →
    getBusByDriverTime s a t = assignments s !! 0)).
Proof.
  intros s.
  assert (consistent s) as Hs by apply consistent_run, consistent_init.
  split_and!.
  - by apply getDriverByBusTime_unset.
  - by apply getBusByDriverTime_unset.
  - intros Hinj Ht Hts. split; intros Hno.
    + apply getDriverByBusTime_unset; [done|].
      rewrite Forall_forall in *. intros r Hr E.
      apply timeKey_inj in E as [? ?]; [|by auto..].
      apply (Hno r Hr). by f_equal.
    + apply getBusByDriverTime_unset; [done|].
      rewrite Forall_forall in *. intros r Hr E.
      apply timeKey_inj in E as [? ?]; [|by auto..].
      apply (Hno r Hr). by f_equal.
Qed.

(** C2 (failing input). After the single write
    [recordAssignment("bus-7", "Depot", "Mall", "drv-2", 1000)], the
    point lookups asked for the unrecorded ["unknown"] at time 100 do
    not fail: both return the record of bus ["bus-7"] at time 1000. *)
Theorem point_lookup_unknown_returns_first_record :
  let r0 := mkAssignment "bus-7" "Depot" "Mall" "drv-2" 1000 in
  let s := (recordAssignment init "bus-7" "Depot" "Mall" "drv-2" 1000).1 in
  getDriverByBusTime s "unknown" 100 = Some r0 ∧
  getBusByDriverTime s "unknown" 100 = Some r0.
Proof.
  intros r0 s. unfold getDriverByBusTime, getBusByDriverTime. simpl.
  rewrite !lookup_total_insert, !lookup_total_empty.
  split; by case_decide.
Qed.

(** ** The pair key *)

(** C1 (failing input). The packed encoding of two strings carries no
    boundary, so the pairs ("12", "3") and ("1", "23"), and likewise
    ("A", "BC") and ("AB", "C"), get the same key whatever the hash;
    after a write for bus ["12"] and driver ["3"], the query for bus
    ["1"] and driver ["23"] returns that record. *)
Theorem pairKey_boundary_collision :
  pairKey "12" "3" = pairKey "1" "23" ∧
  pairKey "A" "BC" = pairKey "AB" "C" ∧
  ∀ src dst t,
    getAssignmentsByBusDriver (recordAssignment init "12" src dst "3" t).1
                              "1" "23"
    = Some [mkAssignment "12" src dst "3" t].
Proof.
  split_and!; [done..|]. intros src dst t.
  unfold getAssignmentsByBusDriver. simpl.
  change (pairKey "1" "23") with (pairKey "12" "3").
  unfold push_at. by rewrite lookup_total_insert_eq, lookup_total_empty.
Qed.

(** C8 (failing input). After the single write for bus ["12"] and driver
    ["3"], no assignment was ever recorded for the pair of bus ["1"] and
    driver ["23"], yet [getAssignmentsByBusDriver("1", "23")] does not
    return the empty array: it returns the record of the other pair,
    whatever the hash.  The by-bus and by-driver queries for ["1"] and
    ["23"] do return the empty array. *)
Theorem pair_query_unrecorded_pair_not_empty (src dst : string) (t : N) :
  let r := mkAssignment "12" src dst "3" t in
  let s := (recordAssignment init "12" src dst "3" t).1 in
  Forall (λ x, (busId x, driverId x) ≠ ("1", "23")) (assignments s) ∧
  getAssignmentsByBusDriver s "1" "23" = Some [r] ∧
  getDriversByBus s "1" = Some [] ∧
  getBusesByDriver s "23" = Some [].
Proof.
  intros r s. split_and!.
  - repeat constructor. simpl. intros [=].
  - unfold getAssignmentsByBusDriver. simpl.
    change (pairKey "1" "23") with (pairKey "12" "3").
    unfold push_at. by rewrite lookup_total_insert_eq, lookup_total_empty.
  - unfold getDriversByBus. simpl. unfold push_at.
    by rewrite lookup_total_insert_ne, lookup_total_empty.
  - unfold getBusesByDriver. simpl. unfold push_at.
    by rewrite lookup_total_insert_ne, lookup_total_empty.
Qed.

(** C4 (failing input). After two writes for bus ["1"] and driver ["23"]
    and one for bus ["12"] and driver ["3"],
    [getAssignmentsByBusDriver("1", "23")] returns all three records,
    most recent first, whatever the hash: not exactly the two records
    whose bus id and driver id are the ones asked for.  The by-bus query
    for ["1"] returns exactly those two. *)
Theorem pair_query_returns_unmatched_record :
  let r0 := mkAssignment "1" "Depot" "Mall" "23" 1000 in
  let r1 := mkAssignment "1" "Depot" "Park" "23" 2000 in
  let r2 := mkAssignment "12" "Depot" "Zoo" "3" 3000 in
  let s := run init [RecordAssignment "1" "Depot" "Mall" "23" 1000;
                     RecordAssignment "1" "Depot" "Park" "23" 2000;
                     RecordAssignment "12" "Depot" "Zoo" "3" 3000] in
  getAssignmentsByBusDriver s "1" "23" = Some [r2; r1; r0] ∧
  reverse (filter (λ r, busId r = "1" ∧ driverId r = "23") (assignments s))
  = [r1; r0] ∧
  getDriversByBus s "1" = Some [r1; r0].
Proof.
  intros r0 r1 r2 s.
  assert (consistent s) as Hs by apply consistent_run, consistent_init.
  assert (assignments s = [r0; r1; r2]) as Hlog
    by (unfold s; by rewrite assignments_run).
  split_and!.
  - rewrite getAssignmentsByBusDriver_consistent, Hlog by done.
    by rewrite !filter_cons_True by done.
  - by rewrite Hlog.
  - rewrite getDriversByBus_consistent, Hlog by done. done.
Qed.

(** * Further properties of the contract *)

(** ** The read loop and its bounds *)

Lemma collect_descending_spec log ids rs :
  collect_descending log ids = Some rs ↔
  Forall2 (λ id r, log !! id = Some r) (reverse ids) rs.
Proof. rewrite collect_descending_reverse. apply mapM_Some. Qed.

(** X1. The loop of the three list queries returns exactly when every id
    of the bucket is a position of the log, and reverts on the first
    out-of-bounds read otherwise; when it returns, its result has one
    record per id of the bucket, read at the ids from the last one to
    the first. *)
Theorem collect_descending_in_bounds (log : list Assignment) (ids : list nat) :
  (is_Some (collect_descending log ids) ↔ Forall (λ id, id < length log) ids) ∧
  (∀ rs, collect_descending log ids = Some rs ↔
         Forall2 (λ id r, log !! id = Some r) (reverse ids) rs) ∧
  (∀ rs, collect_descending log ids = Some rs → length rs = length ids).
Proof.
  split_and!.
  - rewrite collect_descending_reverse, mapM_is_Some, Forall_reverse.
    apply Forall_proper; [|done]. intros id. simpl. apply lookup_lt_is_Some.
  - apply collect_descending_spec.
  - intros rs HF%collect_descending_spec.
    apply Forall2_length in HF. by rewrite length_reverse in HF.
Qed.

(** X2. In every state reached by a history of calls, every id held by
    one of the five indices is a position of the log: the buckets of the
    three array-valued mappings and the set entries of the two
    single-valued mappings never point past the end of [assignments]. *)
Theorem indices_in_bounds (cs : list Call) :
  let s := run init cs in
  let n := length (assignments s) in
  (∀ b, Forall (λ id, id < n) (byBus s !!! b)) ∧
  (∀ d, Forall (λ id, id < n) (byDriver s !!! d)) ∧
  (∀ k, Forall (λ id, id < n) (byBusDriver s !!! k)) ∧
  (∀ k id, byBusTime s !! k = Some id → id < n) ∧
  (∀ k id, byDriverTime s !! k = Some id → id < n).
Proof.
  intros s n.
  assert (consistent s) as Hs by apply consistent_run, consistent_init.
  split_and!.
  - intros b. rewrite (by_bus_ok s Hs). apply Forall_forall.
    intros i. apply positions_lt.
  - intros d. rewrite (by_driver_ok s Hs). apply Forall_forall.
    intros i. apply positions_lt.
  - intros k. rewrite (by_pair_ok s Hs). apply Forall_forall.
    intros i. apply positions_lt.
  - intros k id. rewrite (by_bus_time_ok s Hs).
    intros Hid%last_Some_elem_of. by eapply positions_lt.
  - intros k id. rewrite (by_driver_time_ok s Hs).
    intros Hid%last_Some_elem_of. by eapply positions_lt.
Qed.

(** ** What a point lookup returns *)

Lemma last_positions_deref (P : Assignment → Prop)
    `{!∀ r, Decision (P r)} log :
  match last (positions P log) with
  | Some i => log !! i = last (filter P log) ∧ is_Some (last (filter P log))
  | None => last (filter P log) = None
  end.
Proof.
  pose proof (Forall2_last _ _ _ (positions_deref P log)) as HF.
  inversion HF as [i r Hi Ei Er|Ei Er]; [|done].
  split; [done|by eexists].
Qed.

Lemma point_read_last (P : Assignment → Prop) `{!∀ r, Decision (P r)}
    `{Countable K} (m : gmap K nat) (k : K) log :
  m !! k = last (positions P log) →
  log !! (m !!! k) =
  match last (filter P log) with Some r => Some r | None => log !! 0 end.
Proof.
  intros Hm. rewrite lookup_total_alt, Hm.
  pose proof (last_positions_deref P log) as H'.
  destruct (last (positions P log)) as [i|]; simpl.
  - destruct H' as [-> [r ->]]. done.
  - by rewrite H'.
Qed.

Lemma filter_ext_Forall {A} (P Q : A → Prop)
    `{!∀ x, Decision (P x), !∀ x, Decision (Q x)} (l : list A) :
  Forall (λ x, P x ↔ Q x) l → filter P l = filter Q l.
Proof.
  induction 1 as [|x l Hx _ IH]; [done|].
  rewrite !filter_cons, IH.
  destruct (decide (P x)), (decide (Q x)); try done; exfalso; tauto.
Qed.

Lemma getDriverByBusTime_latest s a t :
  consistent s →
  getDriverByBusTime s a t =
  match last (filter (λ r, timeKey (busId r) (timestamp r) = timeKey a t)
                     (assignments s)) with
  | Some r => Some r
  | None => assignments s !! 0
  end.
Proof. intros Hs. apply point_read_last, (by_bus_time_ok s Hs). Qed.

Lemma getBusByDriverTime_latest s a t :
  consistent s →
  getBusByDriverTime s a t =
  match last (filter (λ r, timeKey (driverId r) (timestamp r) = timeKey a t)
                     (assignments s)) with
  | Some r => Some r
  | None => assignments s !! 0
  end.
Proof. intros Hs. apply point_read_last, (by_driver_time_ok s Hs). Qed.

Lemma latest_or_first_None (P : Assignment → Prop) `{!∀ r, Decision (P r)}
    (log : list Assignment) :
  match last (filter P log) with Some r => Some r | None => log !! 0 end = None
  ↔ length log = 0.
Proof.
  destruct (last (filter P log)) as [r|] eqn:E.
  - split; [done|]. intros Hlen%nil_length_inv. by rewrite Hlen in E.
  - rewrite lookup_ge_None. lia.
Qed.

Lemma length_assignments_run cs : length (assignments (run init cs)) = writes cs.
Proof. by rewrite assignments_run, <- length_omap_written. Qed.

Lemma point_lookups_None_iff cs a t :
  (getDriverByBusTime (run init cs) a t = None ↔ writes cs = 0) ∧
  (getBusByDriverTime (run init cs) a t = None ↔ writes cs = 0).
Proof.
  assert (consistent (run init cs)) as Hs by apply consistent_run, consistent_init.
  rewrite getDriverByBusTime_latest, getBusByDriverTime_latest by done.
  rewrite <- length_assignments_run. split; apply latest_or_first_None.
Qed.

(** X3. In every state reached by a history of calls, [getDriverByBusTime]
    returns the most recently appended record whose by-bus-at-time key is
    the key of the query, and [assignments[0]] (a revert on the empty
    log) when no record carries that key; [getBusByDriverTime] does the
    same with the by-driver-at-time key.  With an injective hash and
    [uint256] timestamps, the records that carry the key are those with
    the bus id (driver id) and the timestamp asked for. *)
Theorem point_lookup_returns_latest (cs : list Call) (a : string) (t : N) :
  let s := run init cs in
  let log := assignments s in
  let or_first (o : option Assignment) :=
    match o with Some r => Some r | None => log !! 0 end in
  getDriverByBusTime s a t =
    or_first (last (filter (λ r, timeKey (busId r) (timestamp r) = timeKey a t) log)) ∧
  getBusByDriverTime s a t =
    or_first (last (filter (λ r, timeKey (driverId r) (timestamp r) = timeKey a t) log)) ∧
  (Inj (=) (=) keccak256 → is_uint256 t →
   Forall (λ r, is_uint256 (timestamp r)) log →
   getDriverByBusTime s a t =
     or_first (last (filter (λ r, busId r = a ∧ timestamp r = t) log)) ∧
   getBusByDriverTime s a t =
     or_first (last (filter (λ r, driverId r = a ∧ timestamp r = t) log))).
Proof.
  intros s log or_first.
  assert (consistent s) as Hs by apply consistent_run, consistent_init.
  assert (getDriverByBusTime s a t =
    or_first (last (filter (λ r, timeKey (busId r) (timestamp r) = timeKey a t) log)))
    as Hb by by apply getDriverByBusTime_latest.
  assert (getBusByDriverTime s a t =
    or_first (last (filter (λ r, timeKey (driverId r) (timestamp r) = timeKey a t) log)))
    as Hd by by apply getBusByDriverTime_latest.
  split_and!; [done..|]. intros Hinj Ht Hts. split.
  - rewrite Hb. do 2 f_equal. apply filter_ext_Forall.
    eapply Forall_impl; [exact Hts|]. intros r Hr. simpl. split.
    + by apply timeKey_inj.
    + by intros [-> ->].
  - rewrite Hd. do 2 f_equal. apply filter_ext_Forall.
    eapply Forall_impl; [exact Hts|]. intros r Hr. simpl. split.
    + by apply timeKey_inj.
    + by intros [-> ->].
Qed.

(** X4. In every state reached by a history of calls, the two point
    lookups revert exactly when no write was ever made, whatever they
    are asked for: once the log holds a record, every point lookup
    returns one. *)
Theorem point_lookup_reverts_iff_no_write (cs : list Call) (a : string) (t : N) :
  let s := run init cs in
  (getDriverByBusTime s a t = None ↔ writes cs = 0) ∧
  (getBusByDriverTime s a t = None ↔ writes cs = 0).
Proof. intros s. apply point_lookups_None_iff. Qed.

(** ** What a write changes *)

Lemma collect_descending_grow log r ids rs :
  collect_descending log ids = Some rs →
  collect_descending (log ++ [r]) ids = Some rs ∧
  collect_descending (log ++ [r]) (ids ++ [length log]) = Some (r :: rs).
Proof.
  rewrite !collect_descending_spec. intros HF.
  assert (Forall2 (λ id x, (log ++ [r]) !! id = Some x) (reverse ids) rs) as HF'.
  { eapply Forall2_impl; [exact HF|]. intros i x Hi. by apply lookup_app_l_Some. }
  split; [done|]. rewrite reverse_snoc. constructor; [|done].
  by rewrite lookup_app_r, Nat.sub_diag.
Qed.

Lemma list_queries_after_write s b src dst d t b' d' rs :
  let s' := (recordAssignment s b src dst d t).1 in
  let r := mkAssignment b src dst d t in
  (getDriversByBus s b' = Some rs →
   getDriversByBus s' b' = Some (if decide (b = b') then r :: rs else rs)) ∧
  (getBusesByDriver s d' = Some rs →
   getBusesByDriver s' d' = Some (if decide (d = d') then r :: rs else rs)) ∧
  (getAssignmentsByBusDriver s b' d' = Some rs →
   getAssignmentsByBusDriver s' b' d' =
   Some (if decide (pairKey b d = pairKey b' d') then r :: rs else rs)).
Proof.
  intros s' r. unfold getDriversByBus, getBusesByDriver, getAssignmentsByBusDriver.
  simpl. rewrite !push_at_lookup.
  split_and!; intros [H1 H2]%(collect_descending_grow _ r);
    case_decide; by rewrite ?app_nil_r.
Qed.

(** X5. Whatever the storage, a list query that returned before a write
    returns after it the same list when its key is not the one written,
    and the same list with the new record put in front when it is: by
    bus id, by driver id, and by the hashed key of the pair. *)
Theorem write_effect_on_list_queries (s : State) (b src dst d : string) (t : N)
    (b' d' : string) (rs : list Assignment) :
  let s' := (recordAssignment s b src dst d t).1 in
  let r := mkAssignment b src dst d t in
  (getDriversByBus s b' = Some rs →
   getDriversByBus s' b' = Some (if decide (b = b') then r :: rs else rs)) ∧
  (getBusesByDriver s d' = Some rs →
   getBusesByDriver s' d' = Some (if decide (d = d') then r :: rs else rs)) ∧
  (getAssignmentsByBusDriver s b' d' = Some rs →
   getAssignmentsByBusDriver s' b' d' =
   Some (if decide (pairKey b d = pairKey b' d') then r :: rs else rs)).
Proof. apply list_queries_after_write. Qed.

(** X6. Whatever the storage, right after a write the point lookup for a
    bus id and timestamp with the key of the written ones returns the new
    record, and a point lookup for another key that returned a record
    before the write still returns that record; the same holds for the
    by-driver-at-time lookup. *)
Theorem write_effect_on_point_lookups (s : State) (b src dst d : string) (t : N)
    (a : string) (u : N) :
  let s' := (recordAssignment s b src dst d t).1 in
  let r := mkAssignment b src dst d t in
  (timeKey b t = timeKey a u → getDriverByBusTime s' a u = Some r) ∧
  (timeKey d t = timeKey a u → getBusByDriverTime s' a u = Some r) ∧
  (∀ x, timeKey b t ≠ timeKey a u →
        getDriverByBusTime s a u = Some x → getDriverByBusTime s' a u = Some x) ∧
  (∀ x, timeKey d t ≠ timeKey a u →
        getBusByDriverTime s a u = Some x → getBusByDriverTime s' a u = Some x).
Proof.
  intros s' r. unfold getDriverByBusTime, getBusByDriverTime. simpl.
  split_and!.
  - intros <-. by rewrite lookup_total_insert_eq, lookup_app_r, Nat.sub_diag.
  - intros <-. by rewrite lookup_total_insert_eq, lookup_app_r, Nat.sub_diag.
  - intros x Hne Hx. rewrite lookup_total_insert_ne by done.
    by apply lookup_app_l_Some.
  - intros x Hne Hx. rewrite lookup_total_insert_ne by done.
    by apply lookup_app_l_Some.
Qed.

(** ** The pair query under an injective hash *)

Lemma encode_string_app (a b : string) :
  encode_string (a +:+ b) = encode_string a ++ encode_string b.
Proof.
  unfold encode_string, String.list_byte_of_string.
  induction a as [|c a IH]; [done|]. simpl. by rewrite IH.
Qed.

Lemma pairKey_eq_iff (b d b' d' : string) :
  Inj (=) (=) keccak256 →
  pairKey b d = pairKey b' d' ↔ b +:+ d = b' +:+ d'.
Proof.
  intros Hinj. unfold pairKey, encodePacked_string_string.
  rewrite <- !encode_string_app. split.
  - intros E%(inj keccak256). by apply encode_string_inj.
  - by intros ->.
Qed.

Lemma append_inj_length (a a' x x' : string) :
  String.length a = String.length a' →
  a +:+ x = a' +:+ x' → a = a' ∧ x = x'.
Proof.
  revert a'. induction a as [|c a IH]; intros [|c' a']; simpl; try done.
  intros [= Hlen] [= -> E]. destruct (IH a' Hlen E) as [-> ->]. done.
Qed.

(** X7. With an injective hash, in every state reached by a history of
    calls, [getAssignmentsByBusDriver] returns, most recent first,
    exactly the records whose bus id followed by driver id spell the same
    string as the bus id followed by the driver id of the query. *)
Theorem pair_query_by_concatenation (cs : list Call) (b d : string) :
  Inj (=) (=) keccak256 →
  let s := run init cs in
  getAssignmentsByBusDriver s b d =
  Some (reverse (filter (λ r, busId r +:+ driverId r = b +:+ d) (assignments s))).
Proof.
  intros Hinj s.
  assert (consistent s) as Hs by apply consistent_run, consistent_init.
  rewrite getAssignmentsByBusDriver_consistent by done. do 2 f_equal.
  apply list_filter_iff. intros r. by apply pairKey_eq_iff.
Qed.

(** X8. With an injective hash, in every state reached by a history of
    calls in which every recorded bus id has the length of the bus id
    asked for, [getAssignmentsByBusDriver] returns, most recent first,
    exactly the records with that bus id and that driver id. *)
Theorem pair_query_exact_for_equal_length_bus_ids (cs : list Call) (b d : string) :
  Inj (=) (=) keccak256 →
  let s := run init cs in
  Forall (λ r, String.length (busId r) = String.length b) (assignments s) →
  getAssignmentsByBusDriver s b d =
  Some (reverse (filter (λ r, busId r = b ∧ driverId r = d) (assignments s))).
Proof.
  intros Hinj s Hlen.
  assert (consistent s) as Hs by apply consistent_run, consistent_init.
  rewrite getAssignmentsByBusDriver_consistent by done. do 2 f_equal.
  apply filter_ext_Forall. eapply Forall_impl; [exact Hlen|].
  intros r Hr. simpl. rewrite pairKey_eq_iff by done. split.
  - by apply append_inj_length.
  - by intros [-> ->].
Qed.

(** ** The storage is a function of the log *)

Lemma write_of_written c r : written c = Some r → write_of r = c.
Proof. destruct c; try done. by intros [= <-]. Qed.

Lemma run_write_of s cs : run s (write_of <$> omap written cs) = run s cs.
Proof.
  revert s. induction cs as [|c cs IH]; intros s; [done|].
  csimpl. destruct (written c) as [r|] eqn:E; csimpl.
  - rewrite (write_of_written c r E). apply IH.
  - rewrite step_view by (by destruct c). apply IH.
Qed.

(** X9. In every state reached by a history of calls, writing the
    records of the log again on a fresh contract, oldest first, gives
    the same storage: the five indices are determined by the log, and
    the reads and reverted calls of the history leave no trace. *)
Theorem replay_rebuilds_storage (cs : list Call) :
  replay (assignments (run init cs)) = run init cs.
Proof.
  unfold replay. rewrite assignments_run. simpl. apply run_write_of.
Qed.

(** ** Results over a history *)

Lemma list_query_step_suffix (q : State → option (list Assignment)) :
  (∀ s b src dst d t rs, q s = Some rs →
     ∃ new, q (recordAssignment s b src dst d t).1 = Some (new ++ rs)) →
  ∀ cs s rs, q s = Some rs → ∃ new, q (run s cs) = Some (new ++ rs).
Proof.
  intros Hw cs. induction cs as [|c cs IH]; intros s rs Hq.
  - by exists [].
  - simpl. destruct (is_write c) eqn:E.
    + destruct c as [b src dst d t| | | | | |]; try done. rewrite step_write.
      destruct (Hw s b src dst d t rs Hq) as [new1 H1].
      destruct (IH _ _ H1) as [new2 H2].
      exists (new2 ++ new1). by rewrite <- app_assoc.
    + rewrite step_view by done. by apply IH.
Qed.

(** X10. Whatever the storage, a list query that returned a list keeps
    returning, after any further calls of the contract, a list that ends
    with it: later writes only add records in front, for the by-bus, the
    by-driver and the by-bus-and-driver query alike. *)
Theorem list_queries_grow_at_front (s : State) (cs : list Call)
    (b d : string) (rs : list Assignment) :
  (getDriversByBus s b = Some rs →
   ∃ new, getDriversByBus (run s cs) b = Some (new ++ rs)) ∧
  (getBusesByDriver s d = Some rs →
   ∃ new, getBusesByDriver (run s cs) d = Some (new ++ rs)) ∧
  (getAssignmentsByBusDriver s b d = Some rs →
   ∃ new, getAssignmentsByBusDriver (run s cs) b d = Some (new ++ rs)).
Proof.
  split_and!.
  - apply (list_query_step_suffix (λ s, getDriversByBus s b)).
    intros s0 b0 src dst d0 t rs0 Hq.
    destruct (list_queries_after_write s0 b0 src dst d0 t b d rs0)
      as (H1 & _ & _).
    rewrite (H1 Hq). case_decide; [by eexists [_]|by exists []].
  - apply (list_query_step_suffix (λ s, getBusesByDriver s d)).
    intros s0 b0 src dst d0 t rs0 Hq.
    destruct (list_queries_after_write s0 b0 src dst d0 t b d rs0)
      as (_ & H2 & _).
    rewrite (H2 Hq). case_decide; [by eexists [_]|by exists []].
  - apply (list_query_step_suffix (λ s, getAssignmentsByBusDriver s b d)).
    intros s0 b0 src dst d0 t rs0 Hq.
    destruct (list_queries_after_write s0 b0 src dst d0 t b d rs0)
      as (_ & _ & H3).
    rewrite (H3 Hq). case_decide; [by eexists [_]|by exists []].
Qed.

(** X11. In every state reached by a history of calls, a call reverts in
    two cases only: the getter [assignments(i)] asked for a position that
    no write has filled yet, and a point lookup made before the first
    write.  A write and the three list queries always return. *)
Theorem exec_reverts_iff (cs : list Call) (c : Call) :
  exec (run init cs) c = None ↔
  match c with
  | AssignmentsAt i => writes cs ≤ i
  | GetDriverByBusTime _ _ | GetBusByDriverTime _ _ => writes cs = 0
  | _ => False
  end.
Proof.
  set (s := run init cs).
  assert (consistent s) as Hs by apply consistent_run, consistent_init.
  assert (length (assignments s) = writes cs) as Hn
    by apply length_assignments_run.
  destruct c as [b src dst d t|i|b|d|b d|b t|d t]; simpl.
  - done.
  - rewrite fmap_None. unfold assignments_at. by rewrite lookup_ge_None, Hn.
  - rewrite fmap_None, getDriversByBus_consistent by done. done.
  - rewrite fmap_None, getBusesByDriver_consistent by done. done.
  - rewrite fmap_None, getAssignmentsByBusDriver_consistent by done. done.
  - rewrite fmap_None. apply point_lookups_None_iff.
  - rewrite fmap_None. apply point_lookups_None_iff.
Qed.

(** ** The by-bus and by-driver queries *)

(** X12. In every state reached by a history of calls, [getDriversByBus]
    returns exactly the records of the log whose [busId] is the one
    asked for, the most recently appended first: it reads the log at the
    positions of the by-bus bucket from the last to the first, these
    positions decrease strictly, and they are exactly the positions
    whose record carries that [busId].  The same holds for
    [getBusesByDriver] and [driverId]. *)
Theorem list_queries_newest_first (cs : list Call) (b d : string) :
  let s := run init cs in
  let log := assignments s in
  (getDriversByBus s b = Some (reverse (filter (λ r, busId r = b) log)) ∧
   newest_first log (byBus s !!! b) (getDriversByBus s b) ∧
   ∀ i, i ∈ byBus s !!! b ↔ ∃ r, log !! i = Some r ∧ busId r = b) ∧
  (getBusesByDriver s d = Some (reverse (filter (λ r, driverId r = d) log)) ∧
   newest_first log (byDriver s !!! d) (getBusesByDriver s d) ∧
   ∀ i, i ∈ byDriver s !!! d ↔ ∃ r, log !! i = Some r ∧ driverId r = d).
Proof.
  intros s log.
  assert (consistent s) as Hs by apply consistent_run, consistent_init.
  split_and!.
  - by apply getDriversByBus_consistent.
  - unfold getDriversByBus. rewrite (by_bus_ok s Hs).
    apply newest_first_positions.
  - intros i. rewrite (by_bus_ok s Hs). apply elem_of_positions.
  - by apply getBusesByDriver_consistent.
  - unfold getBusesByDriver. rewrite (by_driver_ok s Hs).
    apply newest_first_positions.
  - intros i. rewrite (by_driver_ok s Hs). apply elem_of_positions.
Qed.

(** X13. In every state reached by a history of calls, [getDriversByBus]
    asked for a bus id that no record carries, and [getBusesByDriver]
    asked for a driver id that no record carries, return the empty
    array instead of reverting.  With an injective hash,
    [getAssignmentsByBusDriver] returns the empty array when no record
    has a bus id followed by a driver id that spell the string of the
    bus id and driver id asked for. *)
Theorem unknown_key_empty_list (cs : list Call) (b d : string) :
  let s := run init cs in
  (Forall (λ r, busId r ≠ b) (assignments s) →
   getDriversByBus s b = Some []) ∧
  (Forall (λ r, driverId r ≠ d) (assignments s) →
   getBusesByDriver s d = Some []) ∧
  (Inj (=) (=) keccak256 →
   Forall (λ r, busId r +:+ driverId r ≠ b +:+ d) (assignments s) →
   getAssignmentsByBusDriver s b d = Some []).
Proof.
  intros s.
  assert (consistent s) as Hs by apply consistent_run, consistent_init.
  split_and!.
  - intros Hno. rewrite getDriversByBus_consistent by done.
    by rewrite filter_none.
  - intros Hno. rewrite getBusesByDriver_consistent by done.
    by rewrite filter_none.
  - intros Hinj Hno. rewrite getAssignmentsByBusDriver_consistent by done.
    rewrite filter_none; [done|].
    eapply Forall_impl; [exact Hno|]. intros r Hr. simpl.
    by rewrite pairKey_eq_iff.
Qed.

End Contract.

(** * The contract on concrete histories *)

(** The histories below run the contract with [reference_hash], which is
    injective: a collision seen here is one of the packed encoding, not
    of the hash. *)

Lemma reference_hash_Inj : Inj (=) (=) reference_hash.
Proof. intros x y. apply reference_hash_inj. Qed.

Lemma append_only_witness :
  let r0 := mkAssignment "bus-7" "Depot" "Mall" "drv-2" 1000 in
  let s := run reference_hash init [RecordAssignment "bus-7" "Depot" "Mall" "drv-2" 1000] in
  let later := [RecordAssignment "bus-7" "Depot" "Park" "drv-9" 2000;
                GetDriversByBus "bus-7"; GetDriverByBusTime "bus-7" 9999] in
  assignments_at s 0 = Some r0 ∧
  assignments_at (run reference_hash s later) 0 = Some r0.
Proof.
  intros r0 s later. split.
  - vm_compute. reflexivity.
  - apply (append_only reference_hash s later 0 r0). vm_compute. reflexivity.
Defined.

Lemma index_completeness_witness :
  let r1 := mkAssignment "bus-7" "Depot" "Park" "drv-9" 2000 in
  let s := run reference_hash init
             [RecordAssignment "bus-7" "Depot" "Mall" "drv-2" 1000;
              RecordAssignment "bus-7" "Depot" "Park" "drv-9" 2000] in
  assignments s !! 1 = Some r1 ∧
  (∃ rs, getDriversByBus s "bus-7" = Some rs ∧ r1 ∈ rs) ∧
  (∃ rs, getBusesByDriver s "drv-9" = Some rs ∧ r1 ∈ rs) ∧
  (∃ rs, getAssignmentsByBusDriver reference_hash s "bus-7" "drv-9" = Some rs ∧
         r1 ∈ rs).
Proof.
  intros r1 s.
  assert (assignments s !! 1 = Some r1) as H by (vm_compute; reflexivity).
  split; [exact H|].
  exact (proj2 (index_completeness reference_hash) _ 1 r1 H).
Defined.

Lemma timeKey_injective_witness :
  is_uint256 1000 ∧
  timeKey reference_hash "bus-7" 1000 = timeKey reference_hash "bus-7" 1000 ∧
  ("bus-7" = "bus-7" ∧ 1000%N = 1000%N).
Proof.
  assert (is_uint256 1000) as Ht by (unfold is_uint256; lia).
  split; [exact Ht|]. split; [reflexivity|].
  exact (timeKey_injective reference_hash "bus-7" "bus-7" 1000 1000
           reference_hash_Inj Ht Ht eq_refl).
Defined.

Lemma point_lookup_default_position_witness :
  let r0 := mkAssignment "bus-7" "Depot" "Mall" "drv-2" 1000 in
  let cs := [RecordAssignment "bus-7" "Depot" "Mall" "drv-2" 1000;
             RecordAssignment "bus-7" "Depot" "Park" "drv-9" 2000] in
  let s := run reference_hash init cs in
  (getDriverByBusTime reference_hash s "bus-7" 9999 = Some r0 ∧
   getBusByDriverTime reference_hash s "drv-9" 1000 = Some r0) ∧
  (getDriverByBusTime reference_hash s "bus-8" 1000 = Some r0 ∧
   getBusByDriverTime reference_hash s "drv-2" 2000 = Some r0) ∧
  getDriverByBusTime reference_hash init "bus-7" 1000 = None.
Proof.
  intros r0 cs s.
  assert (assignments s !! 0 = Some r0) as H0 by (vm_compute; reflexivity).
  split; [|split].
  - destruct (point_lookup_default_position reference_hash cs "bus-7" 9999)
      as (Hb & _ & _).
    destruct (point_lookup_default_position reference_hash cs "drv-9" 1000)
      as (_ & Hd & _).
    fold s in Hb, Hd. rewrite <- H0.
    split; [apply Hb|apply Hd]; each_record.
  - destruct (point_lookup_default_position reference_hash cs "bus-8" 1000)
      as (_ & _ & Hb).
    destruct (point_lookup_default_position reference_hash cs "drv-2" 2000)
      as (_ & _ & Hd).
    fold s in Hb, Hd. rewrite <- H0. split.
    + apply Hb; [apply reference_hash_Inj|unfold is_uint256; lia| |];
        each_record.
    + apply Hd; [apply reference_hash_Inj|unfold is_uint256; lia| |];
        each_record.
  - destruct (point_lookup_default_position reference_hash [] "bus-7" 1000)
      as (Hb & _ & _).
    apply Hb. constructor.
Defined.


(** * The further properties on concrete histories *)

Lemma collect_descending_in_bounds_witness :
  let r0 := mkAssignment "bus-7" "Depot" "Mall" "drv-2" 1000 in
  let r1 := mkAssignment "bus-7" "Depot" "Park" "drv-9" 2000 in
  Forall (λ id, id < length [r0; r1]) [0; 1] ∧
  is_Some (collect_descending [r0; r1] [0; 1]) ∧
  collect_descending [r0; r1] [0; 1] = Some [r1; r0] ∧
  length [r1; r0] = length [0; 1] ∧
  collect_descending [r0; r1] [0; 2] = None.
Proof.
  intros r0 r1.
  destruct (collect_descending_in_bounds [r0; r1] [0; 1]) as (Hiff & _ & Hlen).
  assert (Forall (λ id, id < length [r0; r1]) [0; 1]) as Hin
    by (repeat constructor; simpl; lia).
  assert (collect_descending [r0; r1] [0; 1] = Some [r1; r0]) as Hres
    by reflexivity.
  split; [exact Hin|]. split; [exact (proj2 Hiff Hin)|].
  split; [exact Hres|]. split; [exact (Hlen _ Hres)|].
  destruct (collect_descending_in_bounds [r0; r1] [0; 2]) as (Hiff' & _ & _).
  destruct (collect_descending [r0; r1] [0; 2]) as [rs|] eqn:E; [|reflexivity].
  assert (Forall (λ id, id < length [r0; r1]) [0; 2]) as Hbad
    by (apply (proj1 Hiff'); eexists; reflexivity).
  apply Forall_cons in Hbad as [_ Hbad]. apply Forall_cons in Hbad as [Hbad _].
  simpl in Hbad. lia.
Defined.

Lemma indices_in_bounds_witness :
  let s := run reference_hash init
             [RecordAssignment "bus-7" "Depot" "Mall" "drv-2" 1000;
              RecordAssignment "bus-7" "Depot" "Park" "drv-9" 2000] in
  byBusTime s !! timeKey reference_hash "bus-7" 2000 = Some 1 ∧
  1 < length (assignments s).
Proof.
  intros s.
  assert (byBusTime s !! timeKey reference_hash "bus-7" 2000 = Some 1) as H
    by (vm_compute; reflexivity).
  split; [exact H|].
  destruct (indices_in_bounds reference_hash
              [RecordAssignment "bus-7" "Depot" "Mall" "drv-2" 1000;
               RecordAssignment "bus-7" "Depot" "Park" "drv-9" 2000])
    as (_ & _ & _ & Hbt & _).
  exact (Hbt _ _ H).
Defined.

Lemma point_lookup_returns_latest_witness :
  let cs := [RecordAssignment "bus-7" "Depot" "Mall" "drv-2" 1000;
             RecordAssignment "bus-9" "Depot" "Zoo" "drv-2" 1000;
             RecordAssignment "bus-7" "Depot" "Park" "drv-9" 1000] in
  let s := run reference_hash init cs in
  is_uint256 1000 ∧
  Forall (λ r, is_uint256 (timestamp r)) (assignments s) ∧
  getDriverByBusTime reference_hash s "bus-7" 1000
  = Some (mkAssignment "bus-7" "Depot" "Park" "drv-9" 1000) ∧
  getBusByDriverTime reference_hash s "drv-2" 1000
  = Some (mkAssignment "bus-9" "Depot" "Zoo" "drv-2" 1000).
Proof.
  intros cs s.
  assert (is_uint256 1000) as Ht by (unfold is_uint256; lia).
  assert (Forall (λ r, is_uint256 (timestamp r)) (assignments s)) as Hts
    by (eval_log; repeat constructor; unfold is_uint256; simpl; lia).
  split; [exact Ht|]. split; [exact Hts|].
  destruct (point_lookup_returns_latest reference_hash cs "bus-7" 1000)
    as (_ & _ & Hb).
  destruct (point_lookup_returns_latest reference_hash cs "drv-2" 1000)
    as (_ & _ & Hd).
  destruct (Hb reference_hash_Inj Ht Hts) as [Eb _].
  destruct (Hd reference_hash_Inj Ht Hts) as [_ Ed].
  split; (etransitivity; [first [exact Eb|exact Ed]|]); vm_compute; reflexivity.
Defined.

Lemma point_lookup_reverts_iff_no_write_witness :
  let cs := [GetDriversByBus "bus-7"; AssignmentsAt 0] in
  writes cs = 0 ∧
  getDriverByBusTime reference_hash (run reference_hash init cs) "bus-7" 1000 = None.
Proof.
  intros cs. split; [reflexivity|].
  apply (proj2 (proj1 (point_lookup_reverts_iff_no_write reference_hash cs
                         "bus-7" 1000))).
  reflexivity.
Defined.

Lemma write_effect_on_list_queries_witness :
  let r0 := mkAssignment "bus-7" "Depot" "Mall" "drv-2" 1000 in
  let r1 := mkAssignment "bus-7" "Depot" "Park" "drv-9" 2000 in
  let s := run reference_hash init
             [RecordAssignment "bus-7" "Depot" "Mall" "drv-2" 1000] in
  let s' := (recordAssignment reference_hash s "bus-7" "Depot" "Park" "drv-9" 2000).1 in
  getDriversByBus s "bus-7" = Some [r0] ∧
  getBusesByDriver s "drv-2" = Some [r0] ∧
  getDriversByBus s' "bus-7" = Some [r1; r0] ∧
  getBusesByDriver s' "drv-2" = Some [r0].
Proof.
  intros r0 r1 s s'.
  assert (getDriversByBus s "bus-7" = Some [r0]) as Hb by (vm_compute; reflexivity).
  assert (getBusesByDriver s "drv-2" = Some [r0]) as Hd by (vm_compute; reflexivity).
  split; [exact Hb|]. split; [exact Hd|].
  destruct (write_effect_on_list_queries reference_hash s
              "bus-7" "Depot" "Park" "drv-9" 2000 "bus-7" "drv-2" [r0])
    as (Hb' & Hd' & _).
  split; [exact (Hb' Hb) | exact (Hd' Hd)].
Defined.

Lemma write_effect_on_point_lookups_witness :
  let r0 := mkAssignment "bus-7" "Depot" "Mall" "drv-2" 1000 in
  let r1 := mkAssignment "bus-7" "Depot" "Park" "drv-9" 2000 in
  let s := run reference_hash init
             [RecordAssignment "bus-7" "Depot" "Mall" "drv-2" 1000] in
  let s' := (recordAssignment reference_hash s "bus-7" "Depot" "Park" "drv-9" 2000).1 in
  getDriverByBusTime reference_hash s' "bus-7" 2000 = Some r1 ∧
  timeKey reference_hash "bus-7" 2000 ≠ timeKey reference_hash "bus-7" 1000 ∧
  getDriverByBusTime reference_hash s "bus-7" 1000 = Some r0 ∧
  getDriverByBusTime reference_hash s' "bus-7" 1000 = Some r0.
Proof.
  intros r0 r1 s s'.
  destruct (write_effect_on_point_lookups reference_hash s
              "bus-7" "Depot" "Park" "drv-9" 2000 "bus-7" 2000)
    as (Hsame & _ & _ & _).
  destruct (write_effect_on_point_lookups reference_hash s
              "bus-7" "Depot" "Park" "drv-9" 2000 "bus-7" 1000)
    as (_ & _ & Hother & _).
  assert (timeKey reference_hash "bus-7" 2000 ≠ timeKey reference_hash "bus-7" 1000)
    as Hne by (vm_compute; intros; discriminate).
  assert (getDriverByBusTime reference_hash s "bus-7" 1000 = Some r0) as H0
    by (vm_compute; reflexivity).
  split; [exact (Hsame eq_refl)|]. split; [exact Hne|]. split; [exact H0|].
  exact (Hother r0 Hne H0).
Defined.

Lemma pair_query_by_concatenation_witness :
  let s := run reference_hash init
             [RecordAssignment "1" "Depot" "Mall" "23" 1000;
              RecordAssignment "12" "Depot" "Zoo" "3" 3000;
              RecordAssignment "1" "Depot" "Park" "24" 2000] in
  getAssignmentsByBusDriver reference_hash s "1" "23"
  = Some [mkAssignment "12" "Depot" "Zoo" "3" 3000;
          mkAssignment "1" "Depot" "Mall" "23" 1000].
Proof.
  intros s.
  etransitivity;
    [exact (pair_query_by_concatenation reference_hash _ "1" "23"
              reference_hash_Inj)|].
  vm_compute. reflexivity.
Defined.

Lemma pair_query_exact_for_equal_length_bus_ids_witness :
  let s := run reference_hash init
             [RecordAssignment "bus-7" "Depot" "Mall" "drv-2" 1000;
              RecordAssignment "bus-9" "Depot" "Zoo" "drv-2" 1000;
              RecordAssignment "bus-7" "Depot" "Park" "drv-2" 3000] in
  Forall (λ r, String.length (busId r) = String.length "bus-7") (assignments s) ∧
  getAssignmentsByBusDriver reference_hash s "bus-7" "drv-2"
  = Some [mkAssignment "bus-7" "Depot" "Park" "drv-2" 3000;
          mkAssignment "bus-7" "Depot" "Mall" "drv-2" 1000].
Proof.
  intros s.
  assert (Forall (λ r, String.length (busId r) = String.length "bus-7")
                 (assignments s)) as Hlen
    by (eval_log; repeat constructor).
  split; [exact Hlen|].
  etransitivity;
    [exact (pair_query_exact_for_equal_length_bus_ids reference_hash _
              "bus-7" "drv-2" reference_hash_Inj Hlen)|].
  vm_compute. reflexivity.
Defined.

Lemma list_queries_grow_at_front_witness :
  let r0 := mkAssignment "bus-7" "Depot" "Mall" "drv-2" 1000 in
  let s := run reference_hash init
             [RecordAssignment "bus-7" "Depot" "Mall" "drv-2" 1000] in
  let later := [RecordAssignment "bus-9" "Depot" "Zoo" "drv-2" 1500;
                GetDriverByBusTime "bus-7" 9999;
                RecordAssignment "bus-7" "Depot" "Park" "drv-9" 2000] in
  getDriversByBus s "bus-7" = Some [r0] ∧
  ∃ new, getDriversByBus (run reference_hash s later) "bus-7" = Some (new ++ [r0]).
Proof.
  intros r0 s later.
  assert (getDriversByBus s "bus-7" = Some [r0]) as H by (vm_compute; reflexivity).
  split; [exact H|].
  exact (proj1 (list_queries_grow_at_front reference_hash s later
                  "bus-7" "drv-2" [r0]) H).
Defined.

Lemma exec_reverts_iff_witness :
  let cs := [RecordAssignment "bus-7" "Depot" "Mall" "drv-2" 1000;
             GetDriversByBus "bus-7"] in
  writes cs ≤ 1 ∧
  exec reference_hash (run reference_hash init cs) (AssignmentsAt 1) = None.
Proof.
  intros cs.
  assert (writes cs ≤ 1) as H by (vm_compute; lia).
  split; [exact H|].
  exact (proj2 (exec_reverts_iff reference_hash cs (AssignmentsAt 1)) H).
Defined.

Lemma later_write_wins_point_lookup_witness :
  let cs3 := [GetDriversByBus "bus-7";
              RecordAssignment "bus-7" "Depot" "Zoo" "drv-2" 2000;
              RecordAssignment "bus-9" "Depot" "Zoo" "drv-2" 1000] in
  let s := run reference_hash init
             (RecordAssignment "bus-7" "Depot" "Mall" "drv-2" 1000 ::
              RecordAssignment "bus-7" "Depot" "Park" "drv-9" 1000 :: cs3) in
  is_uint256 1000 ∧
  Forall (λ c, ∀ r, written c = Some r →
                    is_uint256 (timestamp r) ∧
                    (busId r, timestamp r) ≠ ("bus-7", 1000%N)) cs3 ∧
  Forall (λ c, ∀ r, written c = Some r →
                    timeKey reference_hash (busId r) (timestamp r)
                    ≠ timeKey reference_hash "bus-7" 1000) cs3 ∧
  getDriverByBusTime reference_hash s "bus-7" 1000
  = Some (mkAssignment "bus-7" "Depot" "Park" "drv-9" 1000) ∧
  ∃ rs, getDriversByBus s "bus-7" = Some rs ∧
        mkAssignment "bus-7" "Depot" "Mall" "drv-2" 1000 ∈ rs.
Proof.
  intros cs3 s.
  assert (is_uint256 1000) as Ht by (unfold is_uint256; lia).
  assert (Forall (λ c, ∀ r, written c = Some r →
                    is_uint256 (timestamp r) ∧
                    (busId r, timestamp r) ≠ ("bus-7", 1000%N)) cs3) as Hpairs.
  { apply Forall_cons; split; [by intros r [=]|].
    apply Forall_cons; split.
    { intros r [= <-]. split; [unfold is_uint256; simpl; lia|intros E; discriminate E]. }
    apply Forall_cons; split; [|constructor].
    intros r [= <-]. split; [unfold is_uint256; simpl; lia|intros E; discriminate E]. }
  assert (Forall (λ c, ∀ r, written c = Some r →
                    timeKey reference_hash (busId r) (timestamp r)
                    ≠ timeKey reference_hash "bus-7" 1000) cs3) as Hkeys.
  { apply Forall_cons; split; [by intros r [=]|].
    apply Forall_cons; split.
    { intros r [= <-]. vm_compute. intros; discriminate. }
    apply Forall_cons; split; [|constructor].
    intros r [= <-]. vm_compute. intros; discriminate. }
  split; [exact Ht|]. split; [exact Hpairs|]. split; [exact Hkeys|].
  destruct (later_write_wins_point_lookup reference_hash [] [] cs3
              "bus-7" 1000 "Depot" "Mall" "drv-2" "Depot" "Park" "drv-9")
    as [Hby_key Hby_pair].
  destruct (Hby_pair reference_hash_Inj Ht Hpairs)
    as (_ & _ & _ & Hpoint & _ & _).
  destruct (Hby_key Hkeys) as (_ & _ & _ & _ & _ & Hlist).
  split; [exact Hpoint | exact Hlist].
Defined.

Lemma list_queries_newest_first_witness :
  let r1 := mkAssignment "bus-7" "Depot" "Park" "drv-9" 2000 in
  let s := run reference_hash init
             [RecordAssignment "bus-7" "Depot" "Mall" "drv-2" 1000;
              RecordAssignment "bus-7" "Depot" "Park" "drv-9" 2000] in
  assignments s !! 1 = Some r1 ∧
  1 ∈ byBus s !!! "bus-7" ∧
  1 ∈ byDriver s !!! "drv-9".
Proof.
  intros r1 s.
  assert (assignments s !! 1 = Some r1) as H by (vm_compute; reflexivity).
  split; [exact H|].
  destruct (list_queries_newest_first reference_hash
              [RecordAssignment "bus-7" "Depot" "Mall" "drv-2" 1000;
               RecordAssignment "bus-7" "Depot" "Park" "drv-9" 2000]
              "bus-7" "drv-9") as ((_ & _ & Hb) & (_ & _ & Hd)).
  split.
  - apply (proj2 (Hb 1)). exists r1. split; [exact H|reflexivity].
  - apply (proj2 (Hd 1)). exists r1. split; [exact H|reflexivity].
Defined.

Lemma unknown_key_empty_list_witness :
  let s := run reference_hash init
             [RecordAssignment "bus-7" "Depot" "Mall" "drv-2" 1000;
              RecordAssignment "bus-7" "Depot" "Park" "drv-9" 2000] in
  getDriversByBus s "unknown" = Some [] ∧
  getBusesByDriver s "nobody" = Some [] ∧
  getAssignmentsByBusDriver reference_hash s "bus-7" "drv-3" = Some [].
Proof.
  intros s.
  destruct (unknown_key_empty_list reference_hash
              [RecordAssignment "bus-7" "Depot" "Mall" "drv-2" 1000;
               RecordAssignment "bus-7" "Depot" "Park" "drv-9" 2000]
              "unknown" "nobody") as (Hb & Hd & _).
  destruct (unknown_key_empty_list reference_hash
              [RecordAssignment "bus-7" "Depot" "Mall" "drv-2" 1000;
               RecordAssignment "bus-7" "Depot" "Park" "drv-9" 2000]
              "bus-7" "drv-3") as (_ & _ & Hp).
  split; [|split]; [apply Hb|apply Hd|apply Hp; [apply reference_hash_Inj|]];
    each_record.
Defined.
